(** * Sigma_boy: the model-fallback loop and the response extractors of
      [main_chat.py], embedded and verified.

    The development follows the source file top-down:
    - Python [str] values are sequences of Unicode code points;
    - [generate_text] is split into the pure construction of the candidate
      list and the fallback loop, which threads the remote backend through
      explicit state passing and records every generation call in a trace;
    - the regular expressions that drive the response extractors are
      written out as the deterministic scans the [re] engine performs on
      them;
    - the path guard of the path-taking commands is modelled over
      [os.path.abspath]. *)

From Stdlib Require Import NArith Lia.
From stdpp Require Import base list strings numbers.


(* ===================================================================== *)
(** * Text: Python [str] as a list of code points *)
(* ===================================================================== *)

Abbreviation text := (list N).

(** A source literal.  Every literal written with [lit] below is pure ASCII;
    the one literal of the source that is not is spelled out code point by
    code point ([placeholder]). *)
Definition lit (s : string) : text :=
  map Ascii.N_of_ascii (String.list_ascii_of_string s).

(** [bool(s)] for a string or a list. *)
Definition truthy {A} (s : list A) : bool :=
  match s with [] => false | _ :: _ => true end.

(** [s.startswith(p)], [s.endswith(p)] and [sub in s]. *)
Definition startswith (s p : text) : bool := bool_decide (p `prefix_of` s).
Definition endswith (s p : text) : bool := bool_decide (p `suffix_of` s).

Fixpoint contains (s sub : text) : bool :=
  startswith s sub
  || match s with
     | [] => false
     | _ :: s' => contains s' sub
     end.

(** [x in l] for a list of strings. *)
Definition py_in (x : text) (l : list text) : bool := bool_decide (x ∈ l).

(** The character tables of the interpreter.  CPython answers the
    classification questions for code points below 128 from fixed ASCII
    tables and consults its Unicode database for the others; that database
    is not part of the repository, so it is an interface here. *)
Class UnicodeData := {
  uc_isspace : N → bool;      (* White_Space / bidirectional WS, B, S *)
  uc_isalnum : N → bool;      (* alpha, decimal, digit or numeric *)
  uc_isdecimal : N → bool;    (* category Nd *)
  uc_lower : text → text;     (* full lower-casing of a non-ASCII string *)
  (* General categories are disjoint: no separator or control character is
     a letter or a number.  The scanners below rely on it where a greedy
     [\s*] is followed by [\d+] or [\w+]. *)
  uc_space_not_alnum : ∀ c, uc_isspace c = true → uc_isalnum c = false;
  uc_space_not_decimal : ∀ c, uc_isspace c = true → uc_isdecimal c = false;
}.

Definition is_ascii (c : N) : bool := (c <? 128)%N.

Definition ascii_isspace (c : N) : bool :=
  ((9 <=? c) && (c <=? 13) || (28 <=? c) && (c <=? 32))%N.

Definition ascii_isdecimal (c : N) : bool := ((48 <=? c) && (c <=? 57))%N.

Definition ascii_isupper (c : N) : bool := ((65 <=? c) && (c <=? 90))%N.

Definition ascii_isalnum (c : N) : bool :=
  ascii_isdecimal c || ascii_isupper c || ((97 <=? c) && (c <=? 122))%N.

Definition ascii_lower (c : N) : N :=
  if ascii_isupper c then (c + 32)%N else c.

(** Longest prefix of [s] whose characters satisfy [p], and the rest: the
    greedy repetition of a one-character pattern atom. *)
Fixpoint takewhile {A} (p : A → bool) (s : list A) : list A :=
  match s with
  | [] => []
  | c :: s' => if p c then c :: takewhile p s' else []
  end.

Fixpoint dropwhile {A} (p : A → bool) (s : list A) : list A :=
  match s with
  | [] => []
  | c :: s' => if p c then dropwhile p s' else s
  end.

Section Classes.
Context {U : UnicodeData}.

(** [Py_UNICODE_ISSPACE]: what [str.strip()] removes and what the pattern
    atom [\s] accepts. *)
Definition isspace (c : N) : bool :=
  if is_ascii c then ascii_isspace c else uc_isspace c.

(** The pattern atom [\d]. *)
Definition isdecimal (c : N) : bool :=
  if is_ascii c then ascii_isdecimal c else uc_isdecimal c.

(** The pattern atom [\w]: alphanumeric or underscore. *)
Definition isword (c : N) : bool :=
  (if is_ascii c then ascii_isalnum c else uc_isalnum c) || (c =? 95)%N.

(** [s.lower()]. *)
Definition lower (s : text) : text :=
  if forallb is_ascii s then map ascii_lower s else uc_lower s.

(** [s.strip()]. *)
Definition lstrip (s : text) : text := dropwhile isspace s.
Definition rstrip (s : text) : text := reverse (dropwhile isspace (reverse s)).
Definition strip (s : text) : text := rstrip (lstrip s).
End Classes.


(* ===================================================================== *)
(** * [generate_text]: the candidate list *)
(* ===================================================================== *)

Definition DEFAULT_MODEL : text := lit "gemini-1.5-flash-latest".

Definition pref_order : list text :=
  [ lit "gemini-2.5-flash";
    lit "gemini-2.5-flash-latest";
    lit "gemini-2.5-pro";
    lit "gemini-2.5-pro-latest";
    lit "gemini-1.5-flash";
    lit "gemini-1.5-flash-latest";
    lit "gemini-1.5-pro";
    lit "gemini-1.5-pro-latest";
    lit "gemini-pro" ].

(** Lines 68-70: the condition under which the [-latest] variant is added. *)
Definition latest_eligible (model_name : text) : bool :=
  negb (endswith model_name (lit "-latest"))
  && (startswith model_name (lit "gemini-1.5-")
      || startswith model_name (lit "gemini-2.")).

(** Lines 65-71: the preferred name and its variant. *)
Definition preferred_candidates (model_name : text) : list text :=
  if truthy model_name then
    if latest_eligible model_name
    then [model_name; model_name ++ lit "-latest"]
    else [model_name]
  else [].

(** Lines 84-86, one iteration: [if n in available and n not in candidates:
    candidates.append(n)]. *)
Definition add_ranked (available candidates : list text) (n : text)
  : list text :=
  if py_in n available && negb (py_in n candidates)
  then candidates ++ [n] else candidates.

(** Lines 87-89, one iteration. *)
Definition add_available (candidates : list text) (n : text) : list text :=
  if negb (py_in n candidates) then candidates ++ [n] else candidates.

(** Lines 65-89: both loops run over the growing list. *)
Definition build_candidates (model_name : text) (available : list text)
  : list text :=
  let candidates := preferred_candidates model_name in
  let candidates := foldl (add_ranked available) candidates pref_order in
  foldl add_available candidates available.

(** First occurrences of a list, in order: what a loop of
    [if n not in acc: acc.append(n)] keeps. *)
Fixpoint first_occurrences (l : list text) : list text :=
  match l with
  | [] => []
  | x :: l' => x :: filter (λ y, y ≠ x) (first_occurrences l')
  end.


(* ===================================================================== *)
(** * [generate_text]: the backend and the fallback loop *)
(* ===================================================================== *)

(** What [genai.list_models()] yields: an object whose two attributes are
    read with [getattr] and a default. *)
Record model_info := {
  supported_generation_methods : option (list text);
  name : option text;
}.

Inductive result (E A : Type) :=
| Ok (a : A)
| Raise (e : E).
Arguments Ok {E A} a.
Arguments Raise {E A} e.

(** A model handle: the model name and, when one was given, the system
    instruction. *)
Record model := {
  model_name_of : text;
  system_instruction_of : option text;
}.

(** Lines 29-32: the handle carries the system instruction only when it is
    truthy. *)
Definition _make_model (model_name : text) (system_instruction : option text)
  : model :=
  match system_instruction with
  | Some i =>
    if truthy i
    then {| model_name_of := model_name; system_instruction_of := Some i |}
    else {| model_name_of := model_name; system_instruction_of := None |}
  | None => {| model_name_of := model_name; system_instruction_of := None |}
  end.

(** The remote service and the process environment.  [World] is whatever
    state they have; each operation returns the next state.
    - [environ_api_key] is [os.environ.get("GOOGLE_API_KEY")];
    - [list_models] is one iteration over [genai.list_models()]: the models
      yielded and, when the iteration ended with an exception, that
      exception;
    - [generate_content m prompt] is [m.generate_content(prompt)] followed
      by the read of the [text] of the response; building the handle,
      the call and the read may each raise;
    - [exn_str] is [str(e)]. *)
Class Backend (World Exn : Type) := {
  exn_str : Exn → text;
  environ_api_key : World → option text;
  list_models : World → (list model_info * option Exn) * World;
  generate_content : model → text → World → result Exn text * World;
}.

(** The exceptions that leave [generate_text]. *)
Inductive error (Exn : Type) :=
| MissingApiKey
    (* the RuntimeError of line 55 *)
| NoUsableModel (tried available : list text) (last_err : option Exn)
    (* the RuntimeError of line 109, whose message is formatted from
       [tried], [available] and [last_err] *)
| BackendError (e : Exn).
    (* the bare [raise] of line 108 *)
Arguments MissingApiKey {Exn}.
Arguments NoUsableModel {Exn} tried available last_err.
Arguments BackendError {Exn} e.

(** The state threaded through a run: the world and the trace of the model
    names on which a generation was requested, oldest first. *)
Record state (World : Type) := {
  world : World;
  calls : list text;
}.
Arguments world {World} s.
Arguments calls {World} s.

(** A state monad with exceptions. *)
Definition M (World Err A : Type) : Type :=
  state World → result Err A * state World.

#[export] Instance M_ret {World Err} : MRet (M World Err) :=
  λ A a s, (Ok a, s).

#[export] Instance M_bind {World Err} : MBind (M World Err) :=
  λ A B k m s,
    match m s with
    | (Ok a, s') => k a s'
    | (Raise e, s') => (Raise e, s')
    end.

Definition throw {World Err A} (e : Err) : M World Err A := λ s, (Raise e, s).

(** The four markers of lines 101-104. *)
Definition transient_markers : list text :=
  [lit "404"; lit "not found"; lit "is not supported"; lit "invalid argument"].

(** How the loop of lines 92-108 can end. *)
Inductive loop_exit (Exn : Type) :=
| Returned (t : text)     (* line 96 *)
| Reraised (e : Exn)      (* line 108 *)
| Exhausted.              (* the [for] ran out of candidates *)
Arguments Returned {Exn} t.
Arguments Reraised {Exn} e.
Arguments Exhausted {Exn}.

(** The two variables the loop updates. *)
Record loop_vars (Exn : Type) := {
  tried : list text;
  last_err : option Exn;
}.
Arguments tried {Exn} l.
Arguments last_err {Exn} l.

Section GenerateText.
Context {U : UnicodeData} {World Exn : Type} {B : Backend World Exn}.

Definition get_api_key : M World (error Exn) (option text) :=
  λ s, (Ok (environ_api_key (world s)), s).

(** Lines 41-44, one model of the listing. *)
Definition supports_generation (m : model_info) : bool :=
  let methods := default [] (supported_generation_methods m) in
  existsb (λ x, bool_decide (lower x = lit "generatecontent")) methods.

Definition listed_name (m : model_info) : list text :=
  if supports_generation m then
    match name m with
    | Some n => if truthy n then [n] else []
    | None => []
    end
  else [].

(** Lines 35-47.  An exception of the iteration is swallowed; the names
    collected so far are returned. *)
Definition list_available_text_models (api_key : text)
  : M World (error Exn) (list text) :=
  λ s, let '((models, _), w) := list_models (world s) in
       (Ok (concat (map listed_name models)),
        {| world := w; calls := calls s |}).

(** Lines 94-96, with the request appended to the trace. *)
Definition request (model_name : text) (system_instruction : option text)
    (prompt : text) (s : state World) : result Exn text * state World :=
  let model := _make_model model_name system_instruction in
  let '(r, w) := generate_content model prompt (world s) in
  (r, {| world := w; calls := calls s ++ [model_name] |}).

(** Lines 98-105. *)
Definition is_transient (e : Exn) : bool :=
  let msg := lower (exn_str e) in
  existsb (contains msg) transient_markers.

(** Lines 92-108. *)
Fixpoint fallback_loop (prompt : text) (system_instruction : option text)
    (candidates : list text) (v : loop_vars Exn) (s : state World)
  : (loop_exit Exn * loop_vars Exn) * state World :=
  match candidates with
  | [] => ((Exhausted, v), s)
  | name :: rest =>
    match request name system_instruction prompt s with
    | (Ok t, s') => ((Returned t, v), s')
    | (Raise e, s') =>
      let v' := {| tried := tried v ++ [name]; last_err := last_err v |} in
      if is_transient e then
        fallback_loop prompt system_instruction rest
          {| tried := tried v'; last_err := Some e |} s'
      else ((Reraised e, v'), s')
    end
  end.

(** The loop handles every exception itself. *)
Definition run_loop {A} (f : state World → A * state World)
  : M World (error Exn) A :=
  λ s, let '(a, s') := f s in (Ok a, s').

(** Lines 50-111. *)
Definition generate_text (prompt model_name : text)
    (system_instruction : option text) : M World (error Exn) text :=
  api_key ← get_api_key;
  match api_key with
  | None => throw MissingApiKey
  | Some k =>
    if negb (truthy k) then throw MissingApiKey else
    available ← list_available_text_models k;
    let candidates := build_candidates model_name available in
    '(exit, v) ← run_loop (fallback_loop prompt system_instruction candidates
                            {| tried := []; last_err := None |});
    match exit with
    | Returned t => mret t
    | Reraised e => throw (BackendError e)
    | Exhausted => throw (NoUsableModel (tried v) available (last_err v))
    end
  end.
End GenerateText.

(* ===================================================================== *)
(** * The response extractors *)
(* ===================================================================== *)

Definition LF : N := 10%N.
Definition PERIOD : N := 46%N.
Definition BACKTICK : N := 96%N.
Definition fence : text := [BACKTICK; BACKTICK; BACKTICK].

(** A match of the fenced-block pattern: its two groups and its length. *)
Record fence_match := {
  group1 : option text;     (* [(\w+)?]: [None] when the group took no part *)
  group2 : text;            (* [(.*?)] *)
  match_len : nat;
}.

(** [(.*?)\n```] under [re.S]: the lazy body grows one character at a time
    until a newline and a fence follow.  Returns the body. *)
Fixpoint lazy_body (s : text) : option text :=
  if startswith s (LF :: fence) then Some []
  else match s with
       | [] => None
       | c :: s' => cons c <$> lazy_body s'
       end.

Section Extractors.
Context {U : UnicodeData}.

(** One attempt of [```(\w+)?\n(.*?)\n```] at the head of [s].  After the
    opening fence the greedy [\w+] takes the whole run of word characters;
    giving some back, or skipping the group, would leave a word character
    where the pattern wants the newline, so no other way to match
    exists. *)
Definition match_fence_at (s : text) : option fence_match :=
  if startswith s fence then
    let s1 := drop 3 s in
    let tag := takewhile isword s1 in
    match dropwhile isword s1 with
    | c :: s2 =>
      if (c =? LF)%N then
        body ← lazy_body s2;
        Some {| group1 := if truthy tag then Some tag else None;
                group2 := body;
                match_len := 3 + length tag + 1 + length body + 4 |}
      else None
    | [] => None
    end
  else None.

(** [re.finditer]: matches are searched left to right; after a match the
    search resumes where it ended, after a failure one character further.
    [skip] counts the characters still covered by the last match. *)
Fixpoint finditer_from (skip : nat) (s : text) {struct s} : list fence_match :=
  match s with
  | [] => []
  | _ :: s' =>
    match skip with
    | S k => finditer_from k s'
    | O =>
      match match_fence_at s with
      | Some m => m :: finditer_from (match_len m - 1) s'
      | None => finditer_from 0 s'
      end
    end
  end.

Definition finditer (s : text) : list fence_match := finditer_from 0 s.

(** Lines 375-383. *)
Definition _extract_code_blocks (t : text) : list (text * text) :=
  map (λ m, (strip (lower (default [] (group1 m))), group2 m)) (finditer t).

(** ** [_guess_language_simple] *)

(** [re.search] without anchor: some suffix of [s] starts with a match. *)
Fixpoint search (at_head : text → bool) (s : text) : bool :=
  at_head s
  || match s with
     | [] => false
     | _ :: s' => search at_head s'
     end.

(** [re.search] of a pattern that starts with [^] under [re.M]: the match
    starts at the beginning of the string or right after a newline. *)
Fixpoint search_bol (at_head : text → bool) (bol : bool) (s : text) : bool :=
  bol && at_head s
  || match s with
     | [] => false
     | c :: s' => search_bol at_head (c =? LF)%N s'
     end.

(** [\s+\w+] at the head of [s]. *)
Definition spaces_then_word (s : text) : bool :=
  truthy (takewhile isspace s)
  && match dropwhile isspace s with
     | c :: _ => isword c
     | [] => false
     end.

(** [\s*class\s+\w+] at the head of [s]. *)
Definition class_decl_at (s : text) : bool :=
  let s1 := dropwhile isspace s in
  startswith s1 (lit "class") && spaces_then_word (drop 5 s1).

(** [public\s+class\s+\w+] at the head of [s]. *)
Definition public_class_at (s : text) : bool :=
  startswith s (lit "public")
  && (let s1 := drop 6 s in
      truthy (takewhile isspace s1)
      && (let s2 := dropwhile isspace s1 in
          startswith s2 (lit "class") && spaces_then_word (drop 5 s2))).

(** [function\s+\w+\s*\(|=>] at the head of [s]. *)
Definition function_or_arrow_at (s : text) : bool :=
  startswith s (lit "function")
  && (let s1 := drop 8 s in
      truthy (takewhile isspace s1)
      && (let s2 := dropwhile isspace s1 in
          truthy (takewhile isword s2)
          && startswith (dropwhile isspace (dropwhile isword s2)) (lit "(")))
  || startswith s (lit "=>").

(** Lines 244-257. *)
Definition _guess_language_simple (code_text : text) : text :=
  let s := strip code_text in
  if (contains s (lit "def ") || contains s (lit "import ")
      || search_bol class_decl_at true s)
     && negb (contains s (lit "#include"))
  then lit "python"
  else if contains s (lit "#include") then lit "c"
  else if search public_class_at s then lit "java"
  else if search function_or_arrow_at s && contains s (lit ";")
  then lit "javascript"
  else [].

(** ** Largest block *)

(** [max(items, key=key)]: the running maximum is replaced only by a
    strictly larger key. *)
Fixpoint max_from {A} (key : A → nat) (best : A) (items : list A) : A :=
  match items with
  | [] => best
  | x :: items' =>
    if key best <? key x then max_from key x items'
    else max_from key best items'
  end.

(** The key of line 329. *)
Definition body_length (m : fence_match) : nat := length (group2 m).

(** Lines 326-334: what [_ai_generate_fixed_code] makes of the response
    [out]. *)
Definition fixed_code_of_response (code_text out : text) : text * text :=
  match finditer out with
  | first :: others =>
    let best := max_from body_length first others in
    (strip (default [] (group1 best)), group2 best)
  | [] => (_guess_language_simple code_text, code_text)
  end.

(** ** Numbered lines *)

(** The line boundaries of [str.splitlines()]. *)
Definition is_linebreak (c : N) : bool :=
  bool_decide (c ∈ [10; 11; 12; 13; 28; 29; 30; 133; 8232; 8233]%N).

(** [s.splitlines()]; [line] is the line read so far.  A carriage return
    followed by a line feed is one boundary. *)
Fixpoint splitlines_from (line s : text) : list text :=
  match s with
  | [] => if truthy line then [line] else []
  | c :: s' =>
    if is_linebreak c then
      line :: match s' with
              | d :: s'' =>
                if (c =? 13)%N && (d =? LF)%N then splitlines_from [] s''
                else splitlines_from [] s'
              | [] => splitlines_from [] s'
              end
    else splitlines_from (line ++ [c]) s'
  end.

Definition splitlines (s : text) : list text := splitlines_from [] s.

(** The [re.match] of line 285: optional spaces, digits, an optional
    period, optional spaces, then group 1 up to the end of the line.
    Returns group 1 of the match, if any.  Each greedy repetition takes
    its whole run: a shorter one would leave the next atom on a character
    it rejects, or start the group earlier without changing where it must
    end.  Without [re.S] the dot rejects the newline, and the final [$]
    holds at the end of the string or before a final newline. *)
Definition match_numbered (ln : text) : option text :=
  let s1 := dropwhile isspace ln in
  if truthy (takewhile isdecimal s1) then
    let s2 := dropwhile isdecimal s1 in
    let s3 := match s2 with
              | c :: r => if (c =? PERIOD)%N then r else s2
              | [] => s2
              end in
    let s4 := dropwhile isspace s3 in
    let not_lf := λ c, negb (c =? LF)%N in
    match dropwhile not_lf s4 with
    | [] => Some (takewhile not_lf s4)
    | [_] => Some (takewhile not_lf s4)
    | _ => None
    end
  else None.

(** The literal of line 291. *)
Definition placeholder : text :=
  [60; 98; 7893; 32; 115; 117; 110; 103; 32; 116; 101; 115; 116; 32;
   99; 97; 115; 101; 62]%N.

(** Line 286. *)
Definition clean_line (ln : text) : text :=
  match match_numbered ln with
  | Some g => strip g
  | None => ln
  end.

(** Lines 283-288: the [for] with its [break]. *)
Fixpoint clean_loop (cleaned lines : list text) : list text :=
  match lines with
  | [] => cleaned
  | ln :: lines' =>
    let cleaned := cleaned ++ [clean_line ln] in
    if length cleaned =? 4 then cleaned else clean_loop cleaned lines'
  end.

(** Lines 290-291: the [while], which runs at most four times. *)
Fixpoint pad_loop (fuel : nat) (cleaned : list text) : list text :=
  match fuel with
  | O => cleaned
  | S fuel' =>
    if length cleaned <? 4 then pad_loop fuel' (cleaned ++ [placeholder])
    else cleaned
  end.

(** Lines 280-292: what [_ai_generate_test_lines] makes of the response
    [out]. *)
Definition test_lines_of_response (out : text) : list text :=
  let lines := strip <$> filter (λ ln, truthy (strip ln)) (splitlines out) in
  let cleaned := clean_loop [] lines in
  let cleaned := pad_loop 4 cleaned in
  take 4 cleaned.
End Extractors.

(** The two helpers as they run: one generation, then the extraction.  The
    prompt and the system instruction are templates filled with the code;
    only the backend reads them. *)
Section Helpers.
Context {U : UnicodeData} {World Exn : Type} {B : Backend World Exn}.
Variable test_lines_prompt fixed_code_prompt : text → text.
Variable test_lines_system fixed_code_system : text.

(** Lines 260-292. *)
Definition _ai_generate_test_lines (code_text model_name : text)
  : M World (error Exn) (list text) :=
  out ← generate_text (test_lines_prompt code_text) model_name
          (Some test_lines_system);
  mret (test_lines_of_response out).

(** Lines 295-334. *)
Definition _ai_generate_fixed_code (code_text model_name : text)
  : M World (error Exn) (text * text) :=
  out ← generate_text (fixed_code_prompt code_text) model_name
          (Some fixed_code_system);
  mret (fixed_code_of_response code_text out).
End Helpers.

(* ===================================================================== *)
(** * The path argument of [/promptify], [/fixcode] and [/testify] *)
(* ===================================================================== *)

Definition SLASH : N := 47%N.

(** [s.split("/")]; [comp] is the component read so far. *)
Fixpoint split_slash (comp s : text) : list text :=
  match s with
  | [] => [comp]
  | c :: s' =>
    if (c =? SLASH)%N then comp :: split_slash [] s'
    else split_slash (comp ++ [c]) s'
  end.

(** [posixpath.normpath], the loop over the components: [new_comps] is kept
    in reverse. *)
Fixpoint normalize_comps (initial_slashes : nat) (new_comps comps : list text)
  : list text :=
  match comps with
  | [] => reverse new_comps
  | comp :: comps' =>
    if bool_decide (comp = []) || bool_decide (comp = lit ".") then
      normalize_comps initial_slashes new_comps comps'
    else if negb (bool_decide (comp = lit ".."))
            || (bool_decide (initial_slashes = 0) && negb (truthy new_comps))
            || bool_decide (head new_comps = Some (lit ".."))
    then normalize_comps initial_slashes (comp :: new_comps) comps'
    else normalize_comps initial_slashes (tail new_comps) comps'
  end.

(** [sep.join(comps)]. *)
Fixpoint join_slash (comps : list text) : text :=
  match comps with
  | [] => []
  | [c] => c
  | c :: comps' => c ++ SLASH :: join_slash comps'
  end.

Definition normpath (path : text) : text :=
  if negb (truthy path) then lit "." else
  let initial_slashes :=
    if startswith path (lit "/") then
      if startswith path (lit "//") && negb (startswith path (lit "///"))
      then 2 else 1
    else 0 in
  let comps := normalize_comps initial_slashes [] (split_slash [] path) in
  let path := replicate initial_slashes SLASH ++ join_slash comps in
  if truthy path then path else lit ".".

(** [posixpath.join(a, b)]. *)
Definition path_join (a b : text) : text :=
  if startswith b (lit "/") then b
  else if negb (truthy a) || endswith a (lit "/") then a ++ b
  else a ++ SLASH :: b.

(** [os.path.abspath(path)] in a process whose working directory is
    [getcwd]. *)
Definition abspath (getcwd path : text) : text :=
  normpath (if startswith path (lit "/") then path else path_join getcwd path).

(** The files of the machine: which absolute paths are regular files, and
    what reading one gives ([None] when [open] or [read] raises). *)
Record filesystem := {
  isfile : text → bool;
  read_text : text → option text;
}.

(** What the handler does with the path argument. *)
Inductive path_outcome :=
| Refused                                (* lines 567-569: message, then paste *)
| ReadFailed                             (* lines 576-578: message, then paste *)
| FileRead (abs_fp code_text : text).    (* line 575 *)

Section PathArgument.
Context {U : UnicodeData}.

(** Lines 563-578, and the same text at 596-611 and 628-643. *)
Definition code_from_path (getcwd : text) (fs : filesystem) (path : text)
  : path_outcome :=
  let abs_fp := abspath getcwd path in
  let cwd := abspath getcwd getcwd in
  if negb (startswith abs_fp cwd) || negb (isfile fs abs_fp) then Refused
  else match read_text fs abs_fp with
       | Some content => FileRead abs_fp (strip content)
       | None => ReadFailed
       end.
End PathArgument.

(** A normalized absolute path [p] names the directory [dir] or something
    below it. *)
Definition inside_directory (dir p : text) : bool :=
  bool_decide (p = dir)
  || startswith p (if endswith dir (lit "/") then dir else dir ++ [SLASH]).

(* ===================================================================== *)
(** * Vocabulary of the statements *)
(* ===================================================================== *)

(** The three segments of the candidate list. *)
Definition ranked_candidates (model_name : text) (available : list text)
  : list text :=
  filter (λ n, n ∈ available ∧ n ∉ preferred_candidates model_name) pref_order.

Definition remaining_candidates (model_name : text) (available : list text)
  : list text :=
  first_occurrences
    (filter (λ n, n ∉ preferred_candidates model_name
                        ++ ranked_candidates model_name available) available).

(** The candidates that belong to the ranking and are available, read in
    candidate order, come in ranking order. *)
Definition ranking_order_kept (available candidates : list text) : Prop :=
  filter (λ n, n ∈ pref_order ∧ n ∈ available) candidates
    `sublist_of` pref_order.

Section Runs.
Context {U : UnicodeData} {World Exn : Type} {B : Backend World Exn}.
Variables (prompt : text) (system_instruction : option text).

(** [fails_transiently s names errs s']: starting in [s], a request on
    each of [names] in turn raises the corresponding exception of [errs],
    every one of them carrying a transient marker, and the last request
    leaves [s']. *)
Inductive fails_transiently
  : state World → list text → list Exn → state World → Prop :=
| ft_nil s : fails_transiently s [] [] s
| ft_cons s name e s1 names errs s2 :
    request name system_instruction prompt s = (Raise e, s1) →
    is_transient e = true →
    fails_transiently s1 names errs s2 →
    fails_transiently s (name :: names) (e :: errs) s2.
End Runs.

(** [t] has a fenced block: an opening fence, a possibly empty tag of word
    characters, a newline, a body, a newline and a closing fence. *)
Definition has_fenced_block {U : UnicodeData} (t : text) : Prop :=
  ∃ before tag body after,
    forallb isword tag = true
    ∧ t = before ++ fence ++ tag ++ LF :: body ++ LF :: fence ++ after.

(** The text of one fenced block tagged [python] with body [print(1)]. *)
Definition python_block : text :=
  fence ++ lit "python" ++ LF :: lit "print(1)" ++ LF :: fence.

(** Four numbered lines, and two. *)
Definition four_numbered_lines : text :=
  lit "1. a" ++ LF :: lit "2. b" ++ LF :: lit "3. c" ++ LF :: lit "4. d".

Definition two_numbered_lines : text :=
  lit "1. first case" ++ LF :: lit "2. second case".

(** The head of [s], if any, is rejected by [p]: a greedy run of [p] ends
    before [s]. *)
Definition stops {A} (p : A → bool) (s : list A) : Prop :=
  match s with
  | c :: _ => p c = false
  | [] => True
  end.

(** Every line of the response, among the first four, that the pattern of
    line 285 does not match is an entry of the result. *)
Definition keeps_unnumbered_lines {U : UnicodeData} (out : text)
    (result : list text) : Prop :=
  ∀ ln, ln ∈ take 4 (splitlines out) → match_numbered ln = None → ln ∈ result.

(** A response of three lines: a padded word, a blank line, a word. *)
Definition padded_and_blank_lines : text :=
  lit " a " ++ LF :: LF :: lit "b".

(** ** Instances to run the model on *)

(** Tables under which no code point above 127 is classified or changed. *)
Definition plain_tables : UnicodeData.
Proof.
  refine {| uc_isspace := λ _, false; uc_isalnum := λ _, false;
            uc_isdecimal := λ _, false; uc_lower := λ s, s |}; done.
Defined.

(** A backend whose state counts the requests served.  It lists five
    models, three of which generate text.  A request on [quota_model] is
    answered with a quota error, any other with a 404 during the first
    [outage] requests and with a text after that.  Exceptions are their
    message. *)
Definition scripted_models : list model_info :=
  [ {| supported_generation_methods := Some [lit "generateContent"];
       name := Some (lit "models/gemini-a") |};
    {| supported_generation_methods := Some [lit "embedContent"];
       name := Some (lit "models/embed") |};
    {| supported_generation_methods := Some [lit "generateContent"];
       name := Some (lit "models/gemini-b") |};
    {| supported_generation_methods := None;
       name := Some (lit "models/old") |};
    {| supported_generation_methods := Some [lit "GenerateContent"];
       name := Some (lit "models/gemini-c") |} ].

Definition scripted_backend (outage : nat) (quota_model : text)
  : Backend nat text := {|
  exn_str := λ e, e;
  environ_api_key := λ _, Some (lit "key");
  list_models := λ w, ((scripted_models, None), w);
  generate_content := λ m _ w,
    (if bool_decide (model_name_of m = quota_model)
     then Raise (lit "429 Quota exceeded")
     else if w <? outage then Raise (lit "404 Model Not Found")
     else Ok (lit "pong"),
     S w);
|}.

Definition fresh : state nat := {| world := 0; calls := [] |}.
Definition m_flash : text := lit "gemini-1.5-flash".
Definition m_flash_latest : text := lit "gemini-1.5-flash-latest".
Definition m_a : text := lit "models/gemini-a".
Definition m_b : text := lit "models/gemini-b".
Definition m_c : text := lit "models/gemini-c".
Definition e_404 : text := lit "404 Model Not Found".

(** A machine with a project directory and a sibling directory whose name
    extends the project's. *)
Definition project_dir : text := lit "/home/u/proj".
Definition sibling_file : text := lit "/home/u/proj2/secret.txt".

Definition sibling_fs : filesystem := {|
  isfile := λ p, bool_decide (p = sibling_file);
  read_text := λ p,
    if bool_decide (p = sibling_file) then Some (lit "hunter2 ") else None;
|}.

(* ===================================================================== *)
(** * The candidate list *)
(* ===================================================================== *)

Section ListFacts.
Context {A : Type}.

Lemma filter_ext_in (P Q : A → Prop) `{∀ x, Decision (P x)}
    `{∀ x, Decision (Q x)} (l : list A) :
  (∀ x, x ∈ l → P x ↔ Q x) → filter P l = filter Q l.
Proof.
  induction l as [|a l IH]; intros HPQ; [done|].
  rewrite !filter_cons.
  rewrite IH by (intros x Hx; apply HPQ; by right).
  destruct (HPQ a ltac:(by left)) as [H1 H2].
  repeat case_decide; tauto.
Qed.
End ListFacts.

Lemma py_in_true x l : py_in x l = true ↔ x ∈ l.
Proof. apply bool_decide_eq_true. Qed.

Lemma py_in_false x l : py_in x l = false ↔ x ∉ l.
Proof. apply bool_decide_eq_false. Qed.

Lemma truthy_true {A} (s : list A) : truthy s = true ↔ s ≠ [].
Proof. by destruct s. Qed.

(** The first loop appends, in ranking order, the ranked names that are
    available and not yet listed. *)
Lemma foldl_add_ranked available ranking candidates :
  NoDup ranking →
  foldl (add_ranked available) candidates ranking
  = candidates ++ filter (λ n, n ∈ available ∧ n ∉ candidates) ranking.
Proof.
  intros Hnd. revert candidates.
  induction Hnd as [|n ranking Hn Hnd IH]; intros candidates; simpl.
  { by rewrite app_nil_r. }
  rewrite IH, filter_cons. unfold add_ranked.
  destruct (py_in n available) eqn:Hav; simpl.
  - apply py_in_true in Hav.
    destruct (py_in n candidates) eqn:Hc; simpl.
    + apply py_in_true in Hc. case_decide; [tauto|done].
    + apply py_in_false in Hc. case_decide; [|tauto].
      rewrite <- app_assoc. simpl. do 2 f_equal.
      apply filter_ext_in. intros x Hx.
      rewrite elem_of_app, list_elem_of_singleton.
      split; [tauto|]. intros [? ?]. split; [done|].
      intros [?| ->]; tauto.
  - apply py_in_false in Hav. case_decide; [tauto|done].
Qed.

Lemma first_occurrences_filter (P : text → Prop) `{∀ x, Decision (P x)} l :
  first_occurrences (filter P l) = filter P (first_occurrences l).
Proof.
  induction l as [|x l IH]; [done|].
  rewrite filter_cons. cbn [first_occurrences].
  rewrite filter_cons. destruct (decide (P x)) as [HP|HP];
    cbn [first_occurrences]; rewrite IH, !list_filter_filter.
  - f_equal. apply filter_ext_in. intros y _. split; intros [? ?]; done.
  - apply filter_ext_in. intros y _. split; [|by intros [? ?]].
    intros HPy. split; [done|]. by intros ->.
Qed.

(** The second loop appends the first occurrences of the names not yet
    listed. *)
Lemma foldl_add_available available candidates :
  foldl add_available candidates available
  = candidates ++ first_occurrences (filter (λ n, n ∉ candidates) available).
Proof.
  revert candidates.
  induction available as [|n available IH]; intros candidates; simpl.
  { by rewrite app_nil_r. }
  rewrite IH, filter_cons. unfold add_available.
  destruct (py_in n candidates) eqn:Hc; simpl.
  - apply py_in_true in Hc. by case_decide.
  - apply py_in_false in Hc. case_decide; [|done].
    cbn [first_occurrences]. rewrite <- app_assoc. simpl. do 2 f_equal.
    rewrite <- first_occurrences_filter, list_filter_filter.
    f_equal. apply filter_ext_in. intros x _.
    rewrite elem_of_app, list_elem_of_singleton. tauto.
Qed.

Lemma NoDup_pref_order : NoDup pref_order.
Proof. apply (bool_decide_unpack _). by vm_compute. Qed.

Lemma NoDup_first_occurrences l : NoDup (first_occurrences l).
Proof.
  induction l as [|x l IH]; simpl; constructor.
  - rewrite list_elem_of_filter. tauto.
  - by apply list.NoDup_filter.
Qed.

Lemma elem_of_first_occurrences x l : x ∈ first_occurrences l ↔ x ∈ l.
Proof.
  induction l as [|y l IH]; simpl; [done|].
  rewrite !elem_of_cons, list_elem_of_filter, IH.
  destruct (decide (x = y)); tauto.
Qed.

Lemma first_occurrences_sublist l : first_occurrences l `sublist_of` l.
Proof.
  induction l as [|x l IH]; simpl; [done|].
  constructor. etrans; [apply sublist_filter|done].
Qed.

Lemma build_candidates_segments model_name available :
  build_candidates model_name available
  = preferred_candidates model_name
    ++ ranked_candidates model_name available
    ++ remaining_candidates model_name available.
Proof.
  unfold build_candidates.
  rewrite foldl_add_available, foldl_add_ranked by apply NoDup_pref_order.
  by rewrite <- app_assoc.
Qed.

Lemma app_latest_ne (m : text) : m ≠ m ++ lit "-latest".
Proof.
  intros Heq. apply (f_equal length) in Heq.
  rewrite length_app in Heq. simpl in Heq. lia.
Qed.

Lemma NoDup_preferred_candidates m : NoDup (preferred_candidates m).
Proof.
  unfold preferred_candidates.
  destruct (truthy m); [|constructor].
  destruct (latest_eligible m).
  - constructor; [|apply NoDup_singleton].
    rewrite list_elem_of_singleton. apply app_latest_ne.
  - apply NoDup_singleton.
Qed.

Lemma NoDup_build_candidates model_name available :
  NoDup (build_candidates model_name available).
Proof.
  rewrite build_candidates_segments.
  apply list.NoDup_app. split; [apply NoDup_preferred_candidates|]. split.
  - intros x Hx. rewrite elem_of_app.
    unfold remaining_candidates, ranked_candidates.
    rewrite elem_of_first_occurrences, !list_elem_of_filter, elem_of_app.
    tauto.
  - apply list.NoDup_app. split; [apply list.NoDup_filter, NoDup_pref_order|].
    split; [|apply NoDup_first_occurrences].
    intros x Hx. unfold remaining_candidates.
    rewrite elem_of_first_occurrences, list_elem_of_filter, elem_of_app.
    tauto.
Qed.

(** C4, as amended.  For every non-empty preferred name the candidate list
    has no duplicate; it starts with the preferred name, followed by its
    [-latest] variant when eligible; then come the names of the static
    ranking that are available and not already listed, in ranking order;
    then the remaining available names, by first occurrence, in the order
    of the available list.  For preferred name [x] and available list
    [gemini-1.5-flash] the list is [x], [gemini-1.5-flash]. *)
Theorem candidates_segments_in_order (model_name : text)
    (available : list text) :
  model_name ≠ [] →
  let candidates := build_candidates model_name available in
  NoDup candidates
  ∧ head candidates = Some model_name
  ∧ preferred_candidates model_name
    = (if latest_eligible model_name
       then [model_name; model_name ++ lit "-latest"] else [model_name])
  ∧ candidates
    = preferred_candidates model_name
      ++ ranked_candidates model_name available
      ++ remaining_candidates model_name available
  ∧ ranked_candidates model_name available `sublist_of` pref_order
  ∧ remaining_candidates model_name available `sublist_of` available
  ∧ build_candidates (lit "x") [lit "gemini-1.5-flash"]
    = [lit "x"; lit "gemini-1.5-flash"].
Proof.
  intros Hne candidates.
  assert (Hpref : preferred_candidates model_name
    = (if latest_eligible model_name
       then [model_name; model_name ++ lit "-latest"] else [model_name])).
  { unfold preferred_candidates.
    by rewrite (proj2 (truthy_true model_name) Hne). }
  assert (Hseg := build_candidates_segments model_name available).
  split; [apply NoDup_build_candidates|].
  split.
  { subst candidates. rewrite Hseg, Hpref.
    by destruct (latest_eligible model_name). }
  split; [done|]. split; [done|].
  split; [apply sublist_filter|].
  split; [|by vm_compute].
  unfold remaining_candidates.
  etrans; [apply first_occurrences_sublist|apply sublist_filter].
Qed.

Lemma candidates_segments_in_order_witness :
  NoDup (build_candidates DEFAULT_MODEL [lit "gemini-pro"; lit "models/z"]).
Proof.
  apply (candidates_segments_in_order DEFAULT_MODEL
           [lit "gemini-pro"; lit "models/z"]).
  by vm_compute.
Defined.

(** C4, as stated, fails twice.  A preferred name that belongs to the
    ranking is tried first even when a better ranked name is available, so
    the ranking order is not kept among the available names; and an empty
    preferred name is not in the list at all. *)
Lemma candidates_claim_refuted :
  ¬ ranking_order_kept [lit "gemini-2.5-flash"; lit "gemini-pro"]
      (build_candidates (lit "gemini-pro")
         [lit "gemini-2.5-flash"; lit "gemini-pro"])
  ∧ head (build_candidates [] [lit "gemini-pro"]) ≠ Some [].
Proof.
  split; [|by vm_compute].
  unfold ranking_order_kept. intros Hsub. vm_compute in Hsub.
  repeat match goal with
         | H : sublist _ _ |- _ => inversion H; clear H; subst
         end.
Qed.

(** C10.  With an empty preferred name the candidates are the ranked names
    that are available, in ranking order, followed by the other available
    names, by first occurrence. *)
Lemma build_candidates_empty (available : list text) :
  build_candidates [] available
  = filter (λ n, n ∈ available) pref_order
    ++ first_occurrences (filter (λ n, n ∉ pref_order) available).
Proof.
  rewrite build_candidates_segments.
  unfold remaining_candidates, ranked_candidates. simpl. f_equal.
  - apply filter_ext_in. intros x _. rewrite elem_of_nil. tauto.
  - f_equal. apply filter_ext_in. intros x Hx.
    rewrite list_elem_of_filter, elem_of_nil. tauto.
Qed.

(* ===================================================================== *)
(** * The fallback loop *)
(* ===================================================================== *)

Lemma startswith_true (s p : text) : startswith s p = true ↔ ∃ b, s = p ++ b.
Proof. unfold startswith. by rewrite bool_decide_eq_true. Qed.

(** [sub in s] holds exactly when [sub] is a contiguous part of [s]. *)
Lemma contains_true (s sub : text) :
  contains s sub = true ↔ ∃ a b, s = a ++ sub ++ b.
Proof.
  induction s as [|c s IH]; simpl; rewrite orb_true_iff, startswith_true.
  - split.
    + intros [[b Hb]|?]; [|done]. by exists [], b.
    + intros (a & b & Hab). left.
      destruct a; [by exists b|done].
  - rewrite IH. split.
    + intros [[b Hb]|(a & b & Hab)]; [by exists [], b|].
      exists (c :: a), b. by rewrite Hab.
    + intros (a & b & Hab). destruct a as [|c' a]; [left; by exists b|].
      right. exists a, b. by injection Hab.
Qed.

Section Fallback.
Context {U : UnicodeData} {World Exn : Type} {B : Backend World Exn}.
Variables (prompt : text) (system_instruction : option text).

Abbreviation loop := (fallback_loop prompt system_instruction).
Abbreviation failing := (fails_transiently prompt system_instruction).

(** An exception is transient exactly when its lower-cased text has one
    of the four markers as a contiguous part. *)
Lemma is_transient_true (e : Exn) :
  is_transient e = true
  ↔ ∃ marker a b,
      marker ∈ transient_markers ∧ lower (exn_str e) = a ++ marker ++ b.
Proof.
  unfold is_transient. rewrite existsb_exists. split.
  - intros (m & Hm & Hc). apply contains_true in Hc as (a & b & Hab).
    exists m, a, b. by rewrite list_elem_of_In.
  - intros (m & a & b & Hm & Hab). exists m.
    rewrite <- list_elem_of_In, contains_true. eauto.
Qed.

Lemma request_calls name s r s' :
  request name system_instruction prompt s = (r, s') →
  calls s' = calls s ++ [name].
Proof.
  unfold request. destruct (generate_content _ _ _) as [r' w].
  by intros [= <- <-].
Qed.

Lemma fails_transiently_calls s names errs s' :
  failing s names errs s' →
  calls s' = calls s ++ names ∧ length errs = length names.
Proof.
  induction 1 as [|s name e s1 names errs s2 Hreq _ _ [IHc IHl]].
  - by rewrite app_nil_r.
  - apply request_calls in Hreq. rewrite IHc, Hreq, <- app_assoc.
    simpl. by rewrite IHl.
Qed.

(** The loop walks over a prefix of transient failures, recording each
    name and keeping the last exception. *)
Lemma fallback_loop_skips s pre errs s1 :
  failing s pre errs s1 →
  ∀ rest v,
    loop (pre ++ rest) v s
    = loop rest {| tried := tried v ++ pre;
                   last_err := match list.last errs with
                               | Some e => Some e
                               | None => last_err v
                               end |} s1.
Proof.
  induction 1 as [s|s name e s1 names errs s2 Hreq Htr _ IH];
    intros rest v.
  - simpl. rewrite app_nil_r. by destruct v.
  - simpl. rewrite Hreq, Htr, IH. simpl.
    rewrite <- app_assoc. simpl.
    rewrite last_cons. by destruct (list.last errs).
Qed.

(** [generate_text] once the key is there and the models are listed. *)
Lemma generate_text_unfold model_name s k available s0 :
  environ_api_key (world s) = Some k →
  truthy k = true →
  list_available_text_models k s = (Ok available, s0) →
  generate_text prompt model_name system_instruction s
  = match loop (build_candidates model_name available)
            {| tried := []; last_err := None |} s0 with
    | ((Returned t, _), s') => (Ok t, s')
    | ((Reraised e, _), s') => (Raise (BackendError e), s')
    | ((Exhausted, v), s') =>
      (Raise (NoUsableModel (tried v) available (last_err v)), s')
    end.
Proof.
  intros Hkey Hk Hlist. unfold generate_text, mbind, M_bind, get_api_key.
  rewrite Hkey, Hk. simpl. rewrite Hlist. unfold run_loop.
  destruct (loop _ _ s0) as [[[t|e|] v] s']; done.
Qed.

(** Every run of the loop has one of three shapes: a prefix of transient
    failures, then the end of the list, a success, or another failure. *)
Lemma fallback_loop_cases candidates s :
  ∃ pre errs s1,
    failing s pre errs s1
    ∧ (candidates = pre
       ∨ (∃ c post t s2,
            candidates = pre ++ c :: post
            ∧ request c system_instruction prompt s1 = (Ok t, s2))
       ∨ (∃ c post e s2,
            candidates = pre ++ c :: post
            ∧ request c system_instruction prompt s1 = (Raise e, s2)
            ∧ is_transient e = false)).
Proof.
  revert s. induction candidates as [|c rest IH]; intros s.
  { exists [], [], s. split; [constructor|by left]. }
  destruct (request c system_instruction prompt s) as [[t|e] s'] eqn:Hreq.
  - exists [], [], s. split; [constructor|]. right. left.
    by exists c, rest, t, s'.
  - destruct (is_transient e) eqn:Htr.
    + destruct (IH s') as (pre & errs & s1 & Hfail & Hcases).
      exists (c :: pre), (e :: errs), s1.
      split; [by econstructor|].
      destruct Hcases as [->|[(c' & post & t & s2 & -> & Hok)
                             |(c' & post & e' & s2 & -> & Herr & Hno)]].
      * by left.
      * right. left. by exists c', post, t, s2.
      * right. right. by exists c', post, e', s2.
    + exists [], [], s. split; [constructor|]. right. right.
      by exists c, rest, e, s'.
Qed.

(** From the loop to [generate_text]. *)
Ltac through_generate_text Hloop :=
  let Hkey := fresh "Hkey" in
  let Hk := fresh "Hk" in
  let Hlist := fresh "Hlist" in
  let Hcands := fresh "Hcands" in
  intros ? ? ? ? Hkey Hk Hlist Hcands;
  rewrite (generate_text_unfold _ _ _ _ _ Hkey Hk Hlist), Hcands;
  by rewrite Hloop.

(** C1.  When the first K candidates fail with transient markers and the
    next one succeeds, the loop returns that candidate's text, the
    attempted list is exactly the K failed names in their order, and the
    requests made are these K and the successful one: no later candidate
    is asked.  [generate_text] returns the text. *)
Theorem fallback_returns_first_success pre c post errs t s0 s1 s2 :
  failing s0 pre errs s1 →
  request c system_instruction prompt s1 = (Ok t, s2) →
  loop (pre ++ c :: post) {| tried := []; last_err := None |} s0
  = ((Returned t, {| tried := pre; last_err := list.last errs |}), s2)
  ∧ calls s2 = calls s0 ++ pre ++ [c]
  ∧ ∀ model_name s k available,
      environ_api_key (world s) = Some k →
      truthy k = true →
      list_available_text_models k s = (Ok available, s0) →
      build_candidates model_name available = pre ++ c :: post →
      generate_text prompt model_name system_instruction s = (Ok t, s2).
Proof.
  intros Hfail Hreq.
  assert (Hloop : loop (pre ++ c :: post) {| tried := []; last_err := None |} s0
    = ((Returned t, {| tried := pre; last_err := list.last errs |}), s2)).
  { rewrite (fallback_loop_skips _ _ _ _ Hfail). simpl. rewrite Hreq.
    by destruct (list.last errs). }
  split; [done|]. split.
  - apply fails_transiently_calls in Hfail as [Hcalls _].
    apply request_calls in Hreq. by rewrite Hreq, Hcalls, app_assoc.
  - through_generate_text Hloop.
Qed.

(** C2.  When every candidate fails with a transient marker the loop runs
    out with all candidates attempted, in order, and the exception of the
    last one recorded; [generate_text] raises the final error with that
    attempted list, the available list and that exception. *)
Theorem fallback_exhausted candidates errs s0 s1 :
  failing s0 candidates errs s1 →
  loop candidates {| tried := []; last_err := None |} s0
  = ((Exhausted, {| tried := candidates; last_err := list.last errs |}), s1)
  ∧ (candidates ≠ [] → ∃ e, list.last errs = Some e)
  ∧ calls s1 = calls s0 ++ candidates
  ∧ ∀ model_name s k available,
      environ_api_key (world s) = Some k →
      truthy k = true →
      list_available_text_models k s = (Ok available, s0) →
      build_candidates model_name available = candidates →
      generate_text prompt model_name system_instruction s
      = (Raise (NoUsableModel candidates available (list.last errs)), s1).
Proof.
  intros Hfail.
  assert (Hloop : loop candidates {| tried := []; last_err := None |} s0
    = ((Exhausted, {| tried := candidates; last_err := list.last errs |}), s1)).
  { rewrite <- (app_nil_r candidates) at 1.
    rewrite (fallback_loop_skips _ _ _ _ Hfail). simpl.
    by destruct (list.last errs). }
  destruct (fails_transiently_calls _ _ _ _ Hfail) as [Hcalls Hlen].
  split; [done|]. split; [|split; [done|]].
  - intros Hne. destruct errs as [|e errs] using rev_ind.
    + destruct candidates; [done|discriminate Hlen].
    + exists e. by rewrite last_snoc.
  - through_generate_text Hloop.
Qed.

(** C3.  When a candidate, reached after transient failures only, fails
    with an exception that carries none of the markers, the loop re-raises
    that exception at once: the requests made are those up to this
    candidate and none after it.  [generate_text] raises the same
    exception. *)
Theorem fallback_reraises_other_errors pre c post errs e s0 s1 s2 :
  failing s0 pre errs s1 →
  request c system_instruction prompt s1 = (Raise e, s2) →
  is_transient e = false →
  loop (pre ++ c :: post) {| tried := []; last_err := None |} s0
  = ((Reraised e, {| tried := pre ++ [c]; last_err := list.last errs |}), s2)
  ∧ calls s2 = calls s0 ++ pre ++ [c]
  ∧ ∀ model_name s k available,
      environ_api_key (world s) = Some k →
      truthy k = true →
      list_available_text_models k s = (Ok available, s0) →
      build_candidates model_name available = pre ++ c :: post →
      generate_text prompt model_name system_instruction s
      = (Raise (BackendError e), s2).
Proof.
  intros Hfail Hreq Hother.
  assert (Hloop : loop (pre ++ c :: post) {| tried := []; last_err := None |} s0
    = ((Reraised e, {| tried := pre ++ [c]; last_err := list.last errs |}), s2)).
  { rewrite (fallback_loop_skips _ _ _ _ Hfail). simpl.
    rewrite Hreq, Hother. by destruct (list.last errs). }
  split; [done|]. split.
  - apply fails_transiently_calls in Hfail as [Hcalls _].
    apply request_calls in Hreq. by rewrite Hreq, Hcalls, app_assoc.
  - through_generate_text Hloop.
Qed.
End Fallback.

(** ** The loop on the scripted backend *)

Lemma fallback_returns_first_success_witness :
  generate_text (U := plain_tables) (B := scripted_backend 2 m_c)
    (lit "ping") m_flash None fresh
  = (Ok (lit "pong"), {| world := 3; calls := [m_flash; m_flash_latest; m_a] |}).
Proof.
  refine (proj2 (proj2
    (fallback_returns_first_success (U := plain_tables)
       (B := scripted_backend 2 m_c) (lit "ping") None
       [m_flash; m_flash_latest] m_a [m_b; m_c] [e_404; e_404] (lit "pong")
       fresh {| world := 2; calls := [m_flash; m_flash_latest] |}
       {| world := 3; calls := [m_flash; m_flash_latest; m_a] |} _ _))
    m_flash fresh (lit "key") [m_a; m_b; m_c] _ _ _ _).
  - eapply ft_cons; [by vm_compute..|].
    eapply ft_cons; [by vm_compute..|]. apply ft_nil.
  - by vm_compute.
  - by vm_compute.
  - by vm_compute.
  - by vm_compute.
  - by vm_compute.
Defined.

Lemma fallback_exhausted_witness :
  generate_text (U := plain_tables) (B := scripted_backend 9 (lit "none"))
    (lit "ping") (lit "x") None fresh
  = (Raise (NoUsableModel [lit "x"; m_a; m_b; m_c] [m_a; m_b; m_c] (Some e_404)),
     {| world := 4; calls := [lit "x"; m_a; m_b; m_c] |}).
Proof.
  refine (proj2 (proj2 (proj2
    (fallback_exhausted (U := plain_tables)
       (B := scripted_backend 9 (lit "none")) (lit "ping") None
       [lit "x"; m_a; m_b; m_c] [e_404; e_404; e_404; e_404]
       fresh {| world := 4; calls := [lit "x"; m_a; m_b; m_c] |} _)))
    (lit "x") fresh (lit "key") [m_a; m_b; m_c] _ _ _ _).
  - repeat (eapply ft_cons; [by vm_compute..|]). apply ft_nil.
  - by vm_compute.
  - by vm_compute.
  - by vm_compute.
  - by vm_compute.
Defined.

Lemma fallback_reraises_other_errors_witness :
  generate_text (U := plain_tables) (B := scripted_backend 2 m_b)
    (lit "ping") (lit "x") None fresh
  = (Raise (BackendError (lit "429 Quota exceeded")),
     {| world := 3; calls := [lit "x"; m_a; m_b] |}).
Proof.
  refine (proj2 (proj2
    (fallback_reraises_other_errors (U := plain_tables)
       (B := scripted_backend 2 m_b) (lit "ping") None
       [lit "x"; m_a] m_b [m_c] [e_404; e_404] (lit "429 Quota exceeded")
       fresh {| world := 2; calls := [lit "x"; m_a] |}
       {| world := 3; calls := [lit "x"; m_a; m_b] |} _ _ _))
    (lit "x") fresh (lit "key") [m_a; m_b; m_c] _ _ _ _).
  - repeat (eapply ft_cons; [by vm_compute..|]). apply ft_nil.
  - by vm_compute.
  - by vm_compute.
  - by vm_compute.
  - by vm_compute.
  - by vm_compute.
  - by vm_compute.
Defined.

(** ** The requests of a run *)

Section Requests.
Context {U : UnicodeData} {World Exn : Type} {B : Backend World Exn}.
Variables (prompt : text) (system_instruction : option text).

(** The loop asks a prefix of its candidates, in order. *)
Lemma fallback_loop_calls candidates v s :
  ∃ asked,
    asked `prefix_of` candidates
    ∧ calls (fallback_loop prompt system_instruction candidates v s).2
      = calls s ++ asked.
Proof.
  revert v s. induction candidates as [|name rest IH]; intros v s; simpl.
  { exists []. by rewrite app_nil_r. }
  destruct (request _ _ _ s) as [[t|e] s'] eqn:Hreq;
    apply request_calls in Hreq.
  - exists [name]. split; [by apply prefix_cons, prefix_nil|done].
  - destruct (is_transient e).
    + destruct (IH {| tried := tried v ++ [name]; last_err := Some e |} s')
        as (asked & Hpre & Hcalls).
      exists (name :: asked). split; [by apply prefix_cons|].
      by rewrite Hcalls, Hreq, <- app_assoc.
    + exists [name]. split; [by apply prefix_cons, prefix_nil|done].
Qed.

(** The listing keeps truthy names only. *)
Lemma listed_names_truthy (models : list model_info) :
  [] ∉ concat (map listed_name models).
Proof.
  induction models as [|m models IH]; simpl; [apply not_elem_of_nil|].
  rewrite elem_of_app. intros [Hm|?]; [|done].
  unfold listed_name in Hm.
  destruct (supports_generation m); [|by apply elem_of_nil in Hm].
  destruct (name m) as [[|c n]|]; simpl in Hm;
    try by apply elem_of_nil in Hm.
  by apply list_elem_of_singleton in Hm.
Qed.

(** C10.  With an empty preferred name the candidates are the ranked
    names that are available, in ranking order, followed by the other
    available names, by first occurrence, in the order of the available
    list; and no request of the run is made on the empty name. *)
Theorem empty_preferred_name_is_skipped :
  (∀ available,
     build_candidates [] available
     = filter (λ n, n ∈ available) pref_order
       ++ first_occurrences (filter (λ n, n ∉ pref_order) available))
  ∧ ∀ s, ∃ asked,
      calls (generate_text prompt [] system_instruction s).2
      = calls s ++ asked
      ∧ [] ∉ asked.
Proof.
  split; [apply build_candidates_empty|]. intros s.
  unfold generate_text, mbind, M_bind, get_api_key, throw. simpl.
  destruct (environ_api_key (world s)) as [k|];
    [|exists []; split; [by rewrite app_nil_r|apply not_elem_of_nil]].
  destruct (truthy k); simpl;
    [|exists []; split; [by rewrite app_nil_r|apply not_elem_of_nil]].
  unfold list_available_text_models.
  destruct (list_models (world s)) as [[models err] w].
  set (available := concat (map listed_name models)).
  set (s0 := {| world := w; calls := calls s |}).
  unfold run_loop.
  destruct (fallback_loop_calls (build_candidates [] available)
              {| tried := []; last_err := None |} s0)
    as (asked & Hpre & Hcalls).
  destruct (fallback_loop _ _ _ _ s0) as [[exit v] s'].
  simpl in Hcalls. exists asked. split.
  - by destruct exit.
  - intros Hin. destruct Hpre as [rest Hrest].
    assert (Hc : [] ∈ build_candidates [] available).
    { rewrite Hrest, elem_of_app. by left. }
    rewrite build_candidates_empty, elem_of_app in Hc.
    rewrite elem_of_first_occurrences, !list_elem_of_filter in Hc.
    destruct Hc as [[Hav _]|[_ Hav]];
      by apply (listed_names_truthy models).
Qed.
End Requests.

(* ===================================================================== *)
(** * The fenced-block scanner *)
(* ===================================================================== *)

#[global] Arguments startswith : simpl never.

Section Scanning.
Context {A : Type} (p : A → bool).

Lemma takewhile_dropwhile (s : list A) :
  takewhile p s ++ dropwhile p s = s.
Proof.
  induction s as [|c s IH]; simpl; [done|].
  destruct (p c); simpl; by rewrite ?IH.
Qed.

Lemma forallb_takewhile (s : list A) : forallb p (takewhile p s) = true.
Proof.
  induction s as [|c s IH]; simpl; [done|].
  destruct (p c) eqn:Hc; simpl; by rewrite ?Hc, ?IH.
Qed.

Lemma dropwhile_head (s : list A) c r :
  dropwhile p s = c :: r → p c = false.
Proof.
  induction s as [|d s IH]; simpl; [done|].
  destruct (p d) eqn:Hd; [done|]. by intros [= <- _].
Qed.

Lemma takewhile_app_stop (a : list A) c r :
  forallb p a = true → p c = false →
  takewhile p (a ++ c :: r) = a ∧ dropwhile p (a ++ c :: r) = c :: r.
Proof.
  intros Ha Hc. induction a as [|d a IH]; simpl in *.
  - by rewrite Hc.
  - apply andb_true_iff in Ha as [-> Ha]. destruct (IH Ha) as [-> ->].
    done.
Qed.

Lemma takewhile_app_stops (a s : list A) :
  forallb p a = true → stops p s →
  takewhile p (a ++ s) = a ∧ dropwhile p (a ++ s) = s.
Proof.
  intros Ha Hs. destruct s as [|c r].
  - rewrite app_nil_r. clear Hs. induction a as [|d a IH]; [done|].
    simpl in *. apply andb_true_iff in Ha as [-> Ha].
    by destruct (IH Ha) as [-> ->].
  - by apply takewhile_app_stop.
Qed.

Lemma dropwhile_stops (s : list A) : stops p (dropwhile p s).
Proof.
  induction s as [|c s IH]; simpl; [done|].
  by destruct (p c) eqn:Hc.
Qed.

Lemma dropwhile_id (s : list A) : stops p s → dropwhile p s = s.
Proof. destruct s as [|c s]; simpl; [done|]. by intros ->. Qed.

Lemma dropwhile_sublist (s : list A) : dropwhile p s `sublist_of` s.
Proof.
  induction s as [|c s IH]; simpl; [done|].
  destruct (p c); [by constructor|done].
Qed.

Lemma takewhile_all (a : list A) :
  forallb p a = true → takewhile p a = a ∧ dropwhile p a = [].
Proof.
  induction a as [|d a IH]; simpl; [done|].
  intros [-> Ha]%andb_true_iff. by destruct (IH Ha) as [-> ->].
Qed.
End Scanning.

Lemma lazy_body_cons c s :
  lazy_body (c :: s)
  = if startswith (c :: s) (LF :: fence) then Some []
    else cons c <$> lazy_body s.
Proof. done. Qed.

Lemma lazy_body_Some s body :
  lazy_body s = Some body → ∃ rest, s = body ++ LF :: fence ++ rest.
Proof.
  revert body. induction s as [|c s IH]; intros body; [done|].
  rewrite lazy_body_cons.
  destruct (startswith (c :: s) (LF :: fence)) eqn:Hs.
  - intros [= <-]. by apply startswith_true in Hs.
  - destruct (lazy_body s) as [b|]; [|done]. simpl. intros [= <-].
    destruct (IH b eq_refl) as [rest ->]. by exists rest.
Qed.

Lemma lazy_body_is_Some body rest :
  is_Some (lazy_body (body ++ LF :: fence ++ rest)).
Proof.
  induction body as [|c body IH]; [done|].
  rewrite <- app_comm_cons, lazy_body_cons.
  destruct (startswith _ _); [done|].
  destruct IH as [b ->]. done.
Qed.

(** No occurrence of the closing fence starts inside a body that holds
    none: the lazy group stops exactly at the end of such a body. *)
Lemma lazy_body_exact body rest :
  contains body (LF :: fence) = false →
  lazy_body (body ++ LF :: fence ++ rest) = Some body.
Proof.
  induction body as [|c body IH]; intros Hfree; [done|].
  simpl in Hfree. apply orb_false_iff in Hfree as [Hhead Hfree].
  rewrite <- app_comm_cons, lazy_body_cons, (IH Hfree).
  destruct (startswith (c :: body ++ _) _) eqn:Hs; [|done].
  apply startswith_true in Hs as [b Hb].
  assert (Hnot : startswith (c :: body) (LF :: fence) ≠ true)
    by (by rewrite Hhead).
  destruct Hnot. apply startswith_true.
  destruct body as [|c1 [|c2 [|c3 body]]]; simplify_eq/=.
Qed.

Section FencedBlocks.
Context {U : UnicodeData}.

Lemma isword_LF : isword LF = false.
Proof. done. Qed.

(** A successful attempt spells out the pattern. *)
Lemma match_fence_at_Some s m :
  match_fence_at s = Some m →
  ∃ tag rest,
    forallb isword tag = true
    ∧ s = fence ++ tag ++ LF :: group2 m ++ LF :: fence ++ rest
    ∧ group1 m = (if truthy tag then Some tag else None)
    ∧ match_len m = length (fence ++ tag ++ LF :: group2 m ++ LF :: fence).
Proof.
  unfold match_fence_at.
  destruct (startswith s fence) eqn:Hs; [|done].
  apply startswith_true in Hs as [s1 ->].
  change (drop 3 (fence ++ s1)) with s1.
  pose proof (takewhile_dropwhile isword s1) as Hsplit.
  pose proof (forallb_takewhile isword s1) as Htag.
  destruct (dropwhile isword s1) as [|c s2]; [done|].
  destruct (N.eqb_spec c LF) as [->|]; [|done].
  destruct (lazy_body s2) as [body|] eqn:Hbody; [|done].
  simpl. intros [= <-]. simpl.
  apply lazy_body_Some in Hbody as [rest ->].
  exists (takewhile isword s1), rest.
  split; [done|].
  split; [exact (f_equal (app fence) (eq_sym Hsplit))|]. split; [done|].
  rewrite !length_app. simpl. rewrite !length_app. simpl. lia.
Qed.

(** Wherever the pattern is spelled out, the attempt succeeds. *)
Lemma match_fence_at_is_Some tag body rest :
  forallb isword tag = true →
  is_Some (match_fence_at (fence ++ tag ++ LF :: body ++ LF :: fence ++ rest)).
Proof.
  intros Htag. unfold match_fence_at.
  rewrite (proj2 (startswith_true _ _)) by eauto.
  change (drop 3 (fence ++ ?x)) with x.
  destruct (takewhile_app_stop isword tag LF (body ++ LF :: fence ++ rest)
              Htag isword_LF) as [-> ->].
  rewrite N.eqb_refl.
  destruct (lazy_body_is_Some body rest) as [b ->]. by eexists.
Qed.

Lemma match_fence_at_head c s :
  c ≠ BACKTICK → match_fence_at (c :: s) = None.
Proof.
  intros Hc. unfold match_fence_at.
  destruct (startswith (c :: s) fence) eqn:Hs; [|done].
  apply startswith_true in Hs as [? [= ? _]]. done.
Qed.

(** Characters covered by the last match are passed over. *)
Lemma finditer_from_skip k s : finditer_from k s = finditer (drop k s).
Proof.
  revert k. induction s as [|c s IH]; intros [|k]; try done.
  simpl. apply IH.
Qed.

Lemma finditer_cons c s :
  finditer (c :: s)
  = match match_fence_at (c :: s) with
    | Some m => m :: finditer_from (match_len m - 1) s
    | None => finditer s
    end.
Proof. done. Qed.

Lemma finditer_at_match s m :
  match_fence_at s = Some m →
  finditer s = m :: finditer (drop (match_len m) s).
Proof.
  intros Hm. destruct (match_fence_at_Some _ _ Hm)
    as (tag & rest & _ & Hs & _ & Hlen).
  destruct s as [|c s]; [done|].
  rewrite finditer_cons, Hm, finditer_from_skip. f_equal.
  destruct (match_len m) as [|n]; [done|].
  by replace (S n - 1) with n by lia.
Qed.

Lemma finditer_no_match c s :
  match_fence_at (c :: s) = None → finditer (c :: s) = finditer s.
Proof. intros Hm. by rewrite finditer_cons, Hm. Qed.

(** Text without a backtick is passed over. *)
Lemma finditer_plain_prefix before s :
  BACKTICK ∉ before → finditer (before ++ s) = finditer s.
Proof.
  induction before as [|c before IH]; intros Hnot; simpl; [done|].
  apply not_elem_of_cons in Hnot as [Hc Hnot].
  rewrite finditer_no_match by (by apply match_fence_at_head).
  by apply IH.
Qed.

(** A block whose body holds no closing fence, after text without a
    backtick, comes out first with its tag lower-cased and stripped and
    its body unchanged; the scan goes on behind it. *)
Lemma block_round_trip before tag body after :
  BACKTICK ∉ before →
  forallb isword tag = true →
  contains body (LF :: fence) = false →
  _extract_code_blocks
    (before ++ fence ++ tag ++ LF :: body ++ LF :: fence ++ after)
  = (strip (lower tag), body) :: _extract_code_blocks after.
Proof.
  intros Hplain Htag Hbody. unfold _extract_code_blocks.
  rewrite finditer_plain_prefix by done.
  assert (Hm : match_fence_at
                 (fence ++ tag ++ LF :: body ++ LF :: fence ++ after)
               = Some {| group1 := if truthy tag then Some tag else None;
                         group2 := body;
                         match_len := 3 + length tag + 1 + length body + 4 |}).
  { unfold match_fence_at.
    rewrite (proj2 (startswith_true _ _)) by eauto.
    change (drop 3 (fence ++ ?x)) with x.
    destruct (takewhile_app_stop isword tag LF
                (body ++ LF :: fence ++ after) Htag isword_LF) as [-> ->].
    by rewrite N.eqb_refl, lazy_body_exact. }
  rewrite (finditer_at_match _ _ Hm). cbn [map group1 group2 match_len].
  f_equal; [by destruct tag|]. do 2 f_equal.
  replace (3 + length tag + 1 + length body + 4)
    with (length (fence ++ tag ++ LF :: body ++ [LF] ++ fence))
    by (rewrite !length_app; simpl; rewrite !length_app; simpl; lia).
  replace (fence ++ tag ++ LF :: body ++ LF :: fence ++ after)
    with ((fence ++ tag ++ LF :: body ++ [LF] ++ fence) ++ after)
    by (by rewrite <- !app_assoc; simpl; rewrite <- !app_assoc).
  by rewrite drop_app_length.
Qed.

(** The scanner finds a match exactly when the text has a fenced block. *)
Lemma finditer_nil_iff t : finditer t = [] ↔ ¬ has_fenced_block t.
Proof.
  split.
  - intros Hnil (before & tag & body & after & Htag & ->).
    induction before as [|c before IH].
    + destruct (match_fence_at_is_Some tag body after Htag) as [m Hm].
      rewrite app_nil_l in Hnil.
      by rewrite (finditer_at_match _ _ Hm) in Hnil.
    + rewrite <- app_comm_cons in Hnil.
      destruct (match_fence_at (c :: before ++ fence ++ tag ++ LF :: body
                                  ++ LF :: fence ++ after)) as [m|] eqn:Hm.
      * by rewrite (finditer_at_match _ _ Hm) in Hnil.
      * rewrite (finditer_no_match _ _ Hm) in Hnil. by apply IH.
  - intros Hno. induction t as [|c t IH]; [done|].
    destruct (match_fence_at (c :: t)) as [m|] eqn:Hm.
    + destruct Hno. apply match_fence_at_Some in Hm
        as (tag & rest & Htag & -> & _).
      by exists [], tag, (group2 m), rest.
    + rewrite (finditer_no_match _ _ Hm). apply IH.
      intros (before & tag & body & after & Htag & ->).
      apply Hno. by exists (c :: before), tag, body, after.
Qed.
End FencedBlocks.

(* ===================================================================== *)
(** * Block extraction and the largest block *)
(* ===================================================================== *)

Lemma max_from_ge {A} (key : A → nat) (best : A) (items : list A) :
  key best ≤ key (max_from key best items).
Proof.
  revert best. induction items as [|x items IH]; intros best; simpl; [done|].
  destruct (Nat.ltb_spec (key best) (key x)) as [Hlt|Hge]; [|done].
  specialize (IH x). lia.
Qed.

(** [max] returns the first of the items with the largest key. *)
Lemma max_from_first_largest {A} (key : A → nat) (best : A) (items : list A) :
  ∃ before after,
    best :: items = before ++ max_from key best items :: after
    ∧ Forall (λ x, key x < key (max_from key best items)) before
    ∧ Forall (λ x, key x ≤ key (max_from key best items)) after.
Proof.
  revert best. induction items as [|x items IH]; intros best; simpl.
  { exists [], []. by repeat constructor. }
  destruct (Nat.ltb_spec (key best) (key x)) as [Hlt|Hge].
  - destruct (IH x) as (before & after & Heq & Hbefore & Hafter).
    exists (best :: before), after. rewrite Heq. split; [done|].
    split; [|done]. constructor; [|done].
    pose proof (max_from_ge key x items). lia.
  - destruct (IH best) as (before & after & Heq & Hbefore & Hafter).
    remember (max_from key best items) as r eqn:Hr. clear Hr IH.
    destruct before as [|y before].
    + injection Heq as -> ->.
      exists [], (x :: after). split; [done|]. split; [done|].
      by constructor.
    + injection Heq as <- ->.
      exists (best :: x :: before), after. split; [done|].
      inversion_clear Hbefore as [|? ? Hy Hrest].
      split; [|done]. repeat constructor; [done|lia|done].
Qed.

Section Blocks.
Context {U : UnicodeData}.

(** C5.  A text made of the block tagged [python] with body [print(1)],
    possibly between prose without backticks and text that holds no block
    of its own, yields exactly one block, with tag [python] and the body
    unchanged. *)
Theorem python_block_round_trip (before after : text) :
  BACKTICK ∉ before →
  _extract_code_blocks after = [] →
  _extract_code_blocks (before ++ python_block ++ after)
  = [(lit "python", lit "print(1)")].
Proof.
  intros Hplain Hafter. unfold _extract_code_blocks in *.
  apply fmap_nil_inv in Hafter.
  rewrite finditer_plain_prefix by done.
  assert (Hm : match_fence_at (python_block ++ after)
               = Some {| group1 := Some (lit "python");
                         group2 := lit "print(1)"; match_len := 22 |})
    by done.
  rewrite (finditer_at_match _ _ Hm).
  change (drop _ (python_block ++ after)) with after.
  by rewrite Hafter.
Qed.

(** C6.  Among the blocks found, the one selected has the longest body,
    and every block before it has a strictly shorter one: on a tie the
    earliest wins, whatever the order of the blocks.  Of two blocks with
    bodies of 5 and 50 characters the second is selected in either
    order.  This is the block [_ai_generate_fixed_code] returns. *)
Theorem largest_block_selected (first : fence_match)
    (others : list fence_match) :
  let best := max_from body_length first others in
  (∃ before after,
     first :: others = before ++ best :: after
     ∧ Forall (λ m, body_length m < body_length best) before
     ∧ Forall (λ m, body_length m ≤ body_length best) after)
  ∧ (∀ code_text out,
       finditer out = first :: others →
       fixed_code_of_response code_text out
       = (strip (default [] (group1 best)), group2 best))
  ∧ (∀ m5 m50,
       body_length m5 = 5 → body_length m50 = 50 →
       max_from body_length m5 [m50] = m50
       ∧ max_from body_length m50 [m5] = m50)
  ∧ (∀ m1 m2,
       body_length m1 = body_length m2 →
       max_from body_length m1 [m2] = m1).
Proof.
  intros best. split; [apply max_from_first_largest|]. split; [|split].
  - intros code_text out Hfound. unfold fixed_code_of_response.
    by rewrite Hfound.
  - intros m5 m50 H5 H50. simpl. by rewrite H5, H50.
  - intros m1 m2 Htie. simpl. by rewrite Htie, Nat.ltb_irrefl.
Qed.
End Blocks.

Lemma python_block_round_trip_witness :
  _extract_code_blocks (U := plain_tables) python_block
  = [(lit "python", lit "print(1)")].
Proof.
  refine (python_block_round_trip (U := plain_tables) [] [] _ _).
  - apply not_elem_of_nil.
  - done.
Defined.

Lemma largest_block_selected_witness :
  fixed_code_of_response (U := plain_tables) (lit "x = 1")
    (fence ++ LF :: lit "short" ++ LF :: fence ++ lit " or "
     ++ fence ++ lit "py" ++ LF :: lit "longer!" ++ LF :: fence)
  = (lit "py", lit "longer!").
Proof.
  refine (proj1 (proj2 (largest_block_selected (U := plain_tables)
            {| group1 := None; group2 := lit "short"; match_len := 13 |}
            [{| group1 := Some (lit "py"); group2 := lit "longer!";
                match_len := 17 |}]))
            _ _ _).
  by vm_compute.
Defined.

(* ===================================================================== *)
(** * Numbered lines *)
(* ===================================================================== *)

Section NumberedLines.
Context {U : UnicodeData}.

(** The [for] loop keeps the first four cleaned lines. *)
Lemma clean_loop_take cleaned lines :
  length cleaned < 4 →
  clean_loop cleaned lines = take 4 (cleaned ++ (clean_line <$> lines)).
Proof.
  revert cleaned. induction lines as [|ln lines IH]; intros cleaned Hlen.
  - simpl. rewrite app_nil_r. by rewrite take_ge by lia.
  - cbn [clean_loop fmap list_fmap].
    assert (cleaned ++ clean_line ln :: (clean_line <$> lines)
            = (cleaned ++ [clean_line ln]) ++ (clean_line <$> lines))
      as -> by (by rewrite <- app_assoc).
    destruct (Nat.eqb_spec (length (cleaned ++ [clean_line ln])) 4)
      as [H4|H4].
    + by rewrite take_app_length' by done.
    + apply IH. rewrite length_app in *. simpl in *. lia.
Qed.

(** The [while] loop stops by its condition, having filled the list up
    to four entries. *)
Lemma pad_loop_replicate fuel cleaned :
  4 - length cleaned ≤ fuel →
  pad_loop fuel cleaned
  = cleaned ++ replicate (4 - length cleaned) placeholder.
Proof.
  revert cleaned. induction fuel as [|fuel IH]; intros cleaned Hfuel; simpl.
  - replace (4 - length cleaned) with 0 by lia. by rewrite app_nil_r.
  - destruct (Nat.ltb_spec (length cleaned) 4) as [Hlt|Hge].
    + rewrite IH by (rewrite length_app; simpl; lia).
      rewrite length_app, <- app_assoc. simpl. f_equal.
      replace (4 - length cleaned) with (S (4 - (length cleaned + 1)))
        by lia.
      done.
    + replace (4 - length cleaned) with 0 by lia. by rewrite app_nil_r.
Qed.

Lemma test_lines_of_response_take out :
  test_lines_of_response out
  = take 4 ((clean_line <$> (strip <$>
               filter (λ ln, truthy (strip ln)) (splitlines out)))
            ++ replicate 4 placeholder).
Proof.
  unfold test_lines_of_response. cbv zeta.
  rewrite clean_loop_take by (simpl; lia). rewrite app_nil_l.
  set (cleaned := clean_line <$> _).
  rewrite pad_loop_replicate by lia.
  rewrite length_take.
  destruct (Nat.le_gt_cases 4 (length cleaned)) as [Hge|Hlt].
  - rewrite Nat.min_l by done. simpl. rewrite app_nil_r.
    rewrite take_take, Nat.min_id. by rewrite take_app_le by done.
  - rewrite Nat.min_r by lia. rewrite (take_ge cleaned) by lia.
    rewrite (take_ge (cleaned ++ replicate _ _))
      by (rewrite length_app, length_replicate; lia).
    rewrite take_app, (take_ge cleaned), take_replicate by lia.
    do 2 f_equal. lia.
Qed.

Lemma test_lines_of_response_length out :
  length (test_lines_of_response out) = 4.
Proof.
  rewrite test_lines_of_response_take, length_take, length_app,
    length_replicate. lia.
Qed.
End NumberedLines.

Section CleanLine.
Context {U : UnicodeData}.

Lemma isdecimal_not_space c : isdecimal c = true → isspace c = false.
Proof.
  unfold isdecimal, isspace. destruct (is_ascii c).
  - unfold ascii_isdecimal, ascii_isspace.
    intros [H1 H2]%andb_true_iff.
    apply N.leb_le in H1, H2.
    apply orb_false_iff. split; apply andb_false_iff.
    + right. apply N.leb_gt. lia.
    + right. apply N.leb_gt. lia.
  - intros Hd. destruct (uc_isspace c) eqn:Hs; [|done].
    apply uc_space_not_decimal in Hs. congruence.
Qed.

(** Stripping removes a prefix and a suffix. *)
Lemma strip_infix s : ∃ a b, s = a ++ strip s ++ b.
Proof.
  unfold strip, rstrip, lstrip.
  exists (takewhile isspace s),
    (reverse (takewhile isspace (reverse (dropwhile isspace s)))).
  rewrite <- reverse_app, takewhile_dropwhile, reverse_involutive.
  by rewrite takewhile_dropwhile.
Qed.

Lemma elem_of_strip c s : c ∈ strip s → c ∈ s.
Proof.
  intros Hc. destruct (strip_infix s) as (a & b & Hs).
  rewrite Hs, !elem_of_app. tauto.
Qed.

Lemma strip_lstrip s : strip (lstrip s) = strip s.
Proof.
  unfold strip. f_equal. apply dropwhile_id, dropwhile_stops.
Qed.

(** A line whose first character after the leading spaces is not a
    digit does not match and is kept as it is. *)
Lemma clean_line_other ln :
  stops isdecimal (lstrip ln) → clean_line ln = ln.
Proof.
  unfold clean_line, match_numbered, lstrip. intros Hstop.
  destruct (dropwhile isspace ln) as [|c r]; simpl in *; [done|].
  by rewrite Hstop.
Qed.

(** A line made of spaces, digits, possibly a period, and a rest free of
    newlines matches; what is kept is the rest, stripped.  [ds] is the
    whole run of digits and the period is taken when there is one. *)
Lemma clean_line_numbered ws ds (dot : bool) r :
  forallb isspace ws = true →
  ds ≠ [] → forallb isdecimal ds = true →
  (dot = false → stops isdecimal r ∧ stops (λ c, c =? PERIOD)%N r) →
  LF ∉ r →
  clean_line (ws ++ ds ++ (if dot then [PERIOD] else []) ++ r) = strip r.
Proof.
  intros Hws Hne Hds Hdot Hlf.
  unfold clean_line, match_numbered.
  set (tail := (if dot then [PERIOD] else []) ++ r).
  assert (Htail : stops isdecimal tail).
  { subst tail. destruct dot; [done|]. by apply Hdot. }
  assert (Hhead : stops isspace (ds ++ tail)).
  { destruct ds as [|d ds]; [done|]. simpl in *.
    apply andb_true_iff in Hds as [Hd _]. by apply isdecimal_not_space. }
  destruct (takewhile_app_stops isspace ws _ Hws Hhead) as [_ ->].
  destruct (takewhile_app_stops isdecimal ds _ Hds Htail) as [-> ->].
  rewrite (proj2 (truthy_true ds) Hne).
  assert (Hs3 : match tail with
                | c :: r' => if (c =? PERIOD)%N then r' else tail
                | [] => tail
                end = r).
  { subst tail. destruct dot; [done|]. simpl.
    destruct (Hdot eq_refl) as [_ Hp]. destruct r as [|c r']; [done|].
    simpl in Hp. by rewrite Hp. }
  rewrite Hs3.
  assert (Hall : forallb (λ c, negb (c =? LF)%N) (dropwhile isspace r) = true).
  { apply forallb_forall. intros c Hc%list_elem_of_In.
    apply negb_true_iff, N.eqb_neq. intros ->. apply Hlf.
    by eapply elem_of_sublist; [|apply dropwhile_sublist]. }
  destruct (takewhile_all _ _ Hall) as [-> ->].
  apply strip_lstrip.
Qed.
End CleanLine.

Section Lines.
Context {U : UnicodeData}.

Lemma splitlines_from_no_break n : ∀ s line,
  length s ≤ n →
  Forall (λ c, is_linebreak c = false) line →
  Forall (Forall (λ c, is_linebreak c = false)) (splitlines_from line s).
Proof.
  induction n as [|n IH]; intros [|c s] line Hn Hline; simpl in *;
    try lia.
  - destruct (truthy line); by repeat constructor.
  - destruct (truthy line); by repeat constructor.
  - destruct (is_linebreak c) eqn:Hc.
    + constructor; [done|].
      destruct s as [|d s']; [by constructor|].
      destruct ((c =? 13)%N && (d =? LF)%N); apply IH;
        simpl in *; (lia || done).
    + apply IH; [lia|]. apply Forall_app. by repeat constructor.
Qed.

Lemma rstrip_prefix s : rstrip s `prefix_of` s.
Proof.
  unfold rstrip. exists (reverse (takewhile isspace (reverse s))).
  by rewrite <- reverse_app, takewhile_dropwhile, reverse_involutive.
Qed.

Lemma strip_stops s : stops isspace (strip s).
Proof.
  unfold strip. destruct (rstrip_prefix (lstrip s)) as [b Hb].
  pose proof (dropwhile_stops isspace s) as Hstop.
  fold (lstrip s) in Hstop. rewrite Hb in Hstop.
  by destruct (rstrip (lstrip s)).
Qed.

(** The lines handed to the cleaning step are not empty, hold no newline
    and start with a character that is not a space. *)
Lemma stripped_lines_wellformed out :
  Forall (λ ln, ln ≠ [] ∧ (LF ∉ ln) ∧ stops isspace ln)
    (strip <$> filter (λ ln, truthy (strip ln)) (splitlines out)).
Proof.
  apply Forall_fmap, list.Forall_forall. intros ln Hln. simpl.
  apply list_elem_of_filter in Hln as [Hne Hln].
  split; [by apply truthy_true, Is_true_true|].
  split; [|apply strip_stops].
  intros Hlf%elem_of_strip.
  pose proof (splitlines_from_no_break (length out) out [] (le_n _)
                (Forall_nil_2 _)) as Hall.
  rewrite list.Forall_forall in Hall. specialize (Hall ln Hln).
  rewrite list.Forall_forall in Hall. by specialize (Hall LF Hlf).
Qed.

(** C7, as amended.  Blank lines are dropped and the others stripped.
    From a line that starts with digits the digits, a period that
    follows them and the spaces around the rest are removed; any other
    line is kept as stripped.  The first four entries are returned,
    padded with the placeholder up to four.  On the four numbered lines
    [a] to [d] the result is these four texts; on two numbered lines it
    is the two texts and two placeholders. *)
Theorem numbered_lines_extracted (out : text) :
  let lines := strip <$> filter (λ ln, truthy (strip ln)) (splitlines out) in
  let result := test_lines_of_response out in
  length result = 4
  ∧ result = take 4 ((clean_line <$> lines) ++ replicate 4 placeholder)
  ∧ Forall (λ ln, ln ≠ [] ∧ (LF ∉ ln) ∧ stops isspace ln) lines
  ∧ (∀ ln, stops isdecimal (lstrip ln) → clean_line ln = ln)
  ∧ (∀ ws ds (dot : bool) r,
       forallb isspace ws = true →
       ds ≠ [] → forallb isdecimal ds = true →
       (dot = false → stops isdecimal r ∧ stops (λ c, c =? PERIOD)%N r) →
       LF ∉ r →
       clean_line (ws ++ ds ++ (if dot then [PERIOD] else []) ++ r)
       = strip r)
  ∧ test_lines_of_response four_numbered_lines
    = [lit "a"; lit "b"; lit "c"; lit "d"]
  ∧ test_lines_of_response two_numbered_lines
    = [lit "first case"; lit "second case"; placeholder; placeholder].
Proof.
  intros lines result.
  split; [apply test_lines_of_response_length|].
  split; [apply test_lines_of_response_take|].
  split; [apply stripped_lines_wellformed|].
  split; [apply clean_line_other|].
  split; [apply clean_line_numbered|].
  split; by vm_compute.
Qed.
End Lines.

Lemma numbered_lines_extracted_witness :
  clean_line (U := plain_tables) (lit "12. abc ") = lit "abc".
Proof.
  refine (proj1 (proj2 (proj2 (proj2 (proj2
    (numbered_lines_extracted (U := plain_tables) [])))))
    [] (lit "12") true (lit " abc ") _ _ _ _ _).
  - done.
  - done.
  - done.
  - done.
  - by apply (bool_decide_unpack _).
Defined.

(** C7 as stated fails: a line that does not match the pattern is kept only
    after stripping, and not at all when it is blank. *)
Lemma numbered_lines_claim_refuted :
  ¬ keeps_unnumbered_lines (U := plain_tables) padded_and_blank_lines
      (test_lines_of_response (U := plain_tables) padded_and_blank_lines).
Proof.
  intros Hkeeps. specialize (Hkeeps []). revert Hkeeps.
  change (¬ (([] : text) ∈ take 4 (splitlines padded_and_blank_lines) →
             match_numbered (U := plain_tables) [] = None →
             ([] : text) ∈ test_lines_of_response (U := plain_tables)
                              padded_and_blank_lines)).
  apply (bool_decide_unpack _). by vm_compute.
Qed.

(* ===================================================================== *)
(** * The fallback of [_ai_generate_fixed_code] *)
(* ===================================================================== *)

Section FixedCode.
Context {U : UnicodeData} {World Exn : Type} {B : Backend World Exn}.
Variables (fixed_code_prompt : text → text) (fixed_code_system : text).

(** C9.  When the response holds no fenced block, the extraction returns
    the input code unchanged, with the language guessed from that code;
    [_ai_generate_fixed_code] returns normally with this pair. *)
Theorem no_block_falls_back (code_text out : text) :
  ¬ has_fenced_block out →
  fixed_code_of_response code_text out
  = (_guess_language_simple code_text, code_text)
  ∧ ∀ model_name s s',
      generate_text (fixed_code_prompt code_text) model_name
        (Some fixed_code_system) s = (Ok out, s') →
      _ai_generate_fixed_code fixed_code_prompt fixed_code_system
        code_text model_name s
      = (Ok (_guess_language_simple code_text, code_text), s').
Proof.
  intros Hno%finditer_nil_iff.
  assert (Hpure : fixed_code_of_response code_text out
                  = (_guess_language_simple code_text, code_text)).
  { unfold fixed_code_of_response. by rewrite Hno. }
  split; [done|]. intros model_name s s' Hgen.
  unfold _ai_generate_fixed_code, mbind, M_bind.
  by rewrite Hgen, Hpure.
Qed.
End FixedCode.

Lemma no_block_falls_back_witness :
  fixed_code_of_response (U := plain_tables)
    (lit "def f(): return 1") (lit "Sorry, I cannot help with that.")
  = (lit "python", lit "def f(): return 1").
Proof.
  refine (proj1 (no_block_falls_back (U := plain_tables)
            (B := scripted_backend 0 []) (λ code, code) []
            (lit "def f(): return 1")
            (lit "Sorry, I cannot help with that.") _)).
  apply (finditer_nil_iff (U := plain_tables)). by vm_compute.
Defined.

(* ===================================================================== *)
(** * The path guard *)
(* ===================================================================== *)

(** What the guard does ensure: a file is read only when its absolute path
    is a regular file and has the absolute working directory as a prefix,
    character by character. *)
Lemma code_from_path_reads {U : UnicodeData} getcwd fs path abs_fp code_text :
  code_from_path getcwd fs path = FileRead abs_fp code_text →
  abs_fp = abspath getcwd path
  ∧ startswith abs_fp (abspath getcwd getcwd) = true
  ∧ isfile fs abs_fp = true
  ∧ ∃ content, read_text fs abs_fp = Some content ∧ code_text = strip content.
Proof.
  unfold code_from_path.
  destruct (startswith _ _) eqn:Hpre; [|done].
  destruct (isfile fs _) eqn:Hfile; [|done]. simpl.
  destruct (read_text fs _) as [content|] eqn:Hread; [|done].
  intros [= <- <-]. eauto 6.
Qed.

(** C8 fails on the code.  The guard compares the two absolute paths as
    strings, so a file in a sibling directory whose name extends the name
    of the working directory passes it: with the process in [/home/u/proj],
    the argument [../proj2/secret.txt] is read although it is not inside
    the working directory. *)
Lemma path_guard_reads_sibling :
  abspath project_dir (lit "../proj2/secret.txt") = sibling_file
  ∧ inside_directory project_dir sibling_file = false
  ∧ code_from_path (U := plain_tables) project_dir sibling_fs
      (lit "../proj2/secret.txt")
    = FileRead sibling_file (lit "hunter2").
Proof. by vm_compute. Qed.
